(** * Turbos CLMM SDK: pool helpers

    A shallow embedding of the numerical and selection helpers of the
    [Pool] class (two revisions of the class are part of the sources) and
    the properties the specification states about them.

    Conventions of the embedding:
    - a [BN] (bn.js big integer) is a [Z];
    - a [Decimal] (decimal.js) is a rational [Q]; see [Decimal] below;
    - a JavaScript string is a [string] of 8-bit characters;
    - a function that throws returns [Throw msg]. *)

From Stdlib Require Import String Ascii.
From Stdlib Require Import ZArith QArith Qround Lia Lqa List Bool.
From Stdlib Require Import Permutation Sorted.
From Stdlib Require Reals Lra Qreals R_Ifp.
Import ListNotations.

Local Open Scope Z_scope.

(** ** Results of functions that may throw *)

Inductive result (A : Type) : Type :=
| Ok (value : A)
| Throw (message : string).
Arguments Ok {A} value.
Arguments Throw {A} message.

Definition bind {A B : Type} (r : result A) (k : A -> result B) : result B :=
  match r with
  | Ok a => k a
  | Throw m => Throw m
  end.

Notation "x <- r ;; k" := (bind r (fun x => k))
  (at level 61, r at next level, right associativity).

(** ** JavaScript primitives used by the class *)

Module JS.

(** [Number(s)] for the decimal text of an integer [n]: the nearest IEEE-754
    double, ties to even.  A double carries 53 significant bits, so
    integers of magnitude below [2^53] are exact and larger ones are
    rounded at bit [log2 |n| - 52].  (The overflow to [Infinity] beyond
    [2^1024] is not modelled: coin balances are 64-bit.) *)
Definition Number (n : Z) : Z :=
  let a := Z.abs n in
  if a <? 2 ^ 53 then n
  else
    let e := Z.log2 a - 52 in
    let q := Z.shiftr a e in
    let r := Z.land a (Z.ones e) in
    let half := 2 ^ (e - 1) in
    let q' := if (half <? r) || ((r =? half) && Z.odd q) then q + 1 else q in
    Z.sgn n * (q' * 2 ^ e).

(** [Array.prototype.sort(compare)]: a stable sort; [compare a b <= 0]
    keeps [a] in front of [b].  Written as the insertion of each element
    in front of the already sorted later elements. *)
Section Sort.
Context {A : Type} (compare : A -> A -> Z).

Fixpoint insert (x : A) (l : list A) : list A :=
  match l with
  | [] => [x]
  | y :: l' => if compare x y <=? 0 then x :: l else y :: insert x l'
  end.

Definition sort (l : list A) : list A := fold_right insert [] l.
End Sort.

(** [x % y] on integral numbers: the remainder has the sign of [x]
    (for [y <> 0]; JavaScript answers [NaN] for [y = 0]). *)
Definition rem (x y : Z) : Z := Z.rem x y.

(** [String.prototype.toLowerCase], on 8-bit characters: only the letters
    [A-Z] change (coin types are ASCII type tags). *)
Definition lowerChar (c : ascii) : ascii :=
  let n := N_of_ascii c in
  if ((65 <=? n) && (n <=? 90))%N then ascii_of_N (n + 32) else c.

Fixpoint toLowerCase (s : string) : string :=
  match s with
  | EmptyString => EmptyString
  | String c s' => String (lowerChar c) (toLowerCase s')
  end.

(** [s.indexOf(pat)]: the first position at which [pat] occurs in [s],
    [-1] when there is none. *)
Fixpoint indexOfFrom (pat s : string) (i : Z) : Z :=
  if prefix pat s then i
  else match s with
       | EmptyString => -1
       | String _ s' => indexOfFrom pat s' (i + 1)
       end.

Definition indexOf (s pat : string) : Z := indexOfFrom pat s 0.

(** The character class [\w]: [A-Za-z0-9_]. *)
Definition isWordChar (c : ascii) : bool :=
  let n := N_of_ascii c in
  (((48 <=? n) && (n <=? 57)) || ((65 <=? n) && (n <=? 90))
   || (n =? 95) || ((97 <=? n) && (n <=? 122)))%N.

(** The greedy [\w*] at the head of [s]: the run and what follows it. *)
Fixpoint wordRun (s : string) : string * string :=
  match s with
  | EmptyString => (EmptyString, EmptyString)
  | String c s' =>
      if isWordChar c
      then let (w, r) := wordRun s' in (String c w, r)
      else (EmptyString, s)
  end.

Fixpoint dropPrefix (p s : string) : option string :=
  match p, s with
  | EmptyString, _ => Some s
  | String a p', String b s' =>
      if Ascii.eqb a b then dropPrefix p' s' else None
  | String _ _, EmptyString => None
  end.

(** The pattern [\w+::\w+::\w+] tried at the head of [s]; the matched
    text if it matches.  Every [\w+] is followed by a character that is
    not a word character (or by the end of the match), so giving back
    characters never helps and the greedy runs decide the match. *)
Definition matchTypePath (s : string) : option string :=
  let (w1, r1) := wordRun s in
  match w1, dropPrefix "::" r1 with
  | String _ _, Some r2 =>
      let (w2, r3) := wordRun r2 in
      match w2, dropPrefix "::" r3 with
      | String _ _, Some r4 =>
          let (w3, _) := wordRun r4 in
          match w3 with
          | String _ _ => Some (w1 ++ "::" ++ w2 ++ "::" ++ w3)%string
          | EmptyString => None
          end
      | _, _ => None
      end
  | _, _ => None
  end.

(** [s.match(/(\w+::\w+::\w+)/g)]: all matches from left to right, each
    search resuming where the previous match ended; [skip] counts the
    characters of [s] the previous match still covers.  [null] (no match)
    is the empty list. *)
Fixpoint matchAllFrom (skip : nat) (s : string) : list string :=
  match s with
  | EmptyString => []
  | String _ s' =>
      match skip with
      | S k => matchAllFrom k s'
      | O =>
          match matchTypePath s with
          | Some m => m :: matchAllFrom (Nat.pred (String.length m)) s'
          | None => matchAllFrom 0 s'
          end
      end
  end.

Definition matchAll (s : string) : list string := matchAllFrom 0 s.

End JS.

(** ** decimal.js *)

(** Modelled from the spec: the decimal.js library and its configuration are
    not among the sources.  The specification's data model describes a
    [Decimal] as an arbitrary-precision value that is never rounded before
    the final integer conversion, so arithmetic is exact rational arithmetic
    here.  A division by zero (decimal.js answers [Infinity] or [NaN], which
    no integer conversion accepts) is [None].  [toFixed0] is [toFixed(0)]
    under the library's rounding mode ROUND_HALF_UP: to the nearest integer,
    halves away from zero. *)
Module Decimal.

Definition t : Type := Q.

Definition ofZ (z : Z) : t := inject_Z z.

Definition add (x y : t) : t := (x + y)%Q.
Definition sub (x y : t) : t := (x - y)%Q.
Definition mul (x y : t) : t := (x * y)%Q.
Definition div (x y : t) : option t :=
  if Qeq_bool y 0 then None else Some (x / y)%Q.

Definition lte (x y : t) : bool := Qle_bool x y.
Definition gte (x y : t) : bool := Qle_bool y x.
Definition gt (x y : t) : bool := negb (Qle_bool x y).
Definition lt (x y : t) : bool := negb (Qle_bool y x).

Definition floor (x : t) : Z := Qfloor x.
Definition ceil (x : t) : Z := Qceiling x.

Definition toFixed0 (x : t) : Z :=
  if Qle_bool 0 x then Qfloor (x + (1 # 2))%Q else Qceiling (x - (1 # 2))%Q.

End Decimal.

(** ** Coin selection (older revision of the class) *)

(** One entry of [PaginatedCoins.data]; [balance] is the value of the
    decimal text the node returns for a 64-bit amount. *)
Record Coin : Type := mkCoin {
  coinObjectId : string;
  balance : Z
}.

Module Pool001.

(** The comparator of [coins.sort]: from big to small.  Both operands are
    integral doubles, so the sign of the floating-point difference is the
    sign of the exact one. *)
Definition compareCoins (a b : Coin) : Z :=
  JS.Number (balance b) - JS.Number (balance a).

Definition sortCoins (coins : list Coin) : list Coin :=
  JS.sort compareCoins coins.

(** The [for ... of] loop of [selectCoinIds]: push the id, add the
    balance, stop once the running total reaches [needAmount]. *)
Fixpoint collect (coins : list Coin) (coinIds : list string)
         (totalAmount needAmount : Decimal.t) : list string :=
  match coins with
  | [] => coinIds
  | coin :: rest =>
      let coinIds := coinIds ++ [coinObjectId coin] in
      let totalAmount := Decimal.add totalAmount (Decimal.ofZ (balance coin)) in
      if Decimal.gte totalAmount needAmount then coinIds
      else collect rest coinIds totalAmount needAmount
  end.

(** [pages] are the answers of [provider.getCoins], drained in order by
    the [do ... while (result.hasNextPage)] loop. *)
Definition selectCoinIds (pages : list (list Coin)) (needAmount : Decimal.t)
  : list string :=
  let coins := concat pages in
  let coins := sortCoins coins in
  collect coins [] 0%Q needAmount.

(** Returns the product itself; [createPool] applies [toFixed(0)] to it. *)
Definition getMinimumAmountBySlippage (amount slippage : Decimal.t)
  : result Decimal.t :=
  let origin := amount in
  let ratio := Decimal.sub 1%Q (slippage / 100)%Q in
  if Decimal.lte ratio 0%Q || Decimal.gt ratio 1%Q
  then Throw "invalid slippage range"
  else Ok (Decimal.mul origin ratio).

Definition isSUI (coinType : string) : bool :=
  -1 <? JS.indexOf (JS.toLowerCase coinType) "sui".



Definition getPoolTypeArguments (type : string)
  : result (string * string * string) :=
  let matched := JS.matchAll type in
  if negb (Nat.eqb (List.length matched) 4)
  then Throw "Invalid pool type"
  else Ok (nth 1 matched EmptyString, nth 2 matched EmptyString,
           nth 3 matched EmptyString).

End Pool001.

(** ** The math module *)

(** Modelled from the spec: the [MathUtil] class ([this.math]) is not among
    the sources.  [toX64] is [value * 2^64] and [fromX64] is [value / 2^64];
    [priceToSqrtPriceX64] is [floor(sqrt(ratio) * 2^64)] and
    [priceToTickIndex] is [floor(log(ratio) / log(1.0001))] for the
    effective ratio [price * 10^(decimalsB - decimalsA)], both failing with
    [InvalidPrice] when [price <= 0].  Square root and logarithm are the
    real ones. *)
Module MathUtil.

Definition toX64_Decimal (num : Decimal.t) : Decimal.t :=
  Decimal.mul num (inject_Z (2 ^ 64)).

Definition fromX64_Decimal (num : Decimal.t) : Decimal.t :=
  (num / inject_Z (2 ^ 64))%Q.

Import Reals Qreals R_Ifp.

Definition effectiveRatio (price : Decimal.t) (decimalsA decimalsB : Z) : R :=
  (Q2R price * powerRZ 10 (decimalsB - decimalsA))%R.

Definition priceToSqrtPriceX64 (price : Decimal.t) (decimalsA decimalsB : Z)
  : result Z :=
  if Decimal.lte price 0%Q then Throw "InvalidPrice"
  else Ok (Int_part (sqrt (effectiveRatio price decimalsA decimalsB)
                     * IZR (2 ^ 64))%R).

Definition priceToTickIndex (price : Decimal.t) (decimalsA decimalsB : Z)
  : result Z :=
  if Decimal.lte price 0%Q then Throw "InvalidPrice"
  else Ok (Int_part (ln (effectiveRatio price decimalsA decimalsB)
                     / ln (10001 / 10000))%R).

End MathUtil.

(** ** The current revision of the class *)

Record CoinMetadata : Type := { decimals : Z }.

(** [Contract.Fee] *)
Record Fee : Type := {
  objectId : string;
  type : string;
  tickSpacing : Z
}.

(** The argument of [getTokenAmountsFromLiquidity]; the two optional
    fields are [None] when left out. *)
Record TokenAmountsOptions : Type := {
  currentSqrtPrice : Z;
  lowerSqrtPrice : Z;
  upperSqrtPrice : Z;
  liquidity : option Z;
  ceil : option bool
}.

Module Pool000.

(** The amounts before the integer conversion (the [if] chain of
    [getTokenAmountsFromLiquidity]). *)
Definition tokenAmounts (options : TokenAmountsOptions)
  : option (Decimal.t * Decimal.t) :=
  let liquidity :=
    Decimal.ofZ (match liquidity options with
                 | Some l => l
                 | None => 100000000
                 end) in
  let currentPrice := Decimal.ofZ (currentSqrtPrice options) in
  let lowerPrice := Decimal.ofZ (lowerSqrtPrice options) in
  let upperPrice := Decimal.ofZ (upperSqrtPrice options) in
  if currentSqrtPrice options <? lowerSqrtPrice options then
    match Decimal.div
            (Decimal.mul (MathUtil.toX64_Decimal liquidity)
                         (Decimal.sub upperPrice lowerPrice))
            (Decimal.mul lowerPrice upperPrice) with
    | Some amountA => Some (amountA, 0%Q)
    | None => None
    end
  else if currentSqrtPrice options <? upperSqrtPrice options then
    match Decimal.div
            (Decimal.mul (MathUtil.toX64_Decimal liquidity)
                         (Decimal.sub upperPrice currentPrice))
            (Decimal.mul currentPrice upperPrice) with
    | Some amountA =>
        Some (amountA,
              MathUtil.fromX64_Decimal
                (Decimal.mul liquidity (Decimal.sub currentPrice lowerPrice)))
    | None => None
    end
  else
    Some (0%Q,
          MathUtil.fromX64_Decimal
            (Decimal.mul liquidity (Decimal.sub upperPrice lowerPrice))).

(** [options.ceil !== false ? 'ceil' : 'floor'] *)
Definition methodName (options : TokenAmountsOptions) : Decimal.t -> Z :=
  match ceil options with
  | Some false => Decimal.floor
  | _ => Decimal.ceil
  end.

Definition getTokenAmountsFromLiquidity (options : TokenAmountsOptions)
  : option (Z * Z) :=
  match tokenAmounts options with
  | Some (amountA, amountB) =>
      Some (methodName options amountA, methodName options amountB)
  | None => None
  end.

(** The text [toFixed(0)] returns is modelled by the integer it spells. *)
Definition getMinimumAmountBySlippage (amount slippage : Decimal.t)
  : result Z :=
  let origin := amount in
  let ratio := Decimal.sub 1%Q (slippage / 100)%Q in
  if Decimal.lte ratio 0%Q || Decimal.gt ratio 1%Q
  then Throw "invalid slippage range"
  else Ok (Decimal.toFixed0 (Decimal.mul origin ratio)).

Definition parsePoolType (type : string) : result (string * string * string) :=
  let matched := JS.matchAll type in
  if negb (Nat.eqb (List.length matched) 4)
  then Throw "Invalid pool type"
  else Ok (nth 1 matched EmptyString, nth 2 matched EmptyString,
           nth 3 matched EmptyString).

Section TickIndex.
(** [this.math.priceToTickIndex], whatever it computes. *)
Variable priceToTickIndex : Decimal.t -> Z -> Z -> result Z.

Definition getTickIndex (price : Decimal.t) (coinA coinB : CoinMetadata)
           (fee : Fee) : result Z :=
  tick <- priceToTickIndex price (decimals coinA) (decimals coinB) ;;
  let tick := tick - JS.rem tick (tickSpacing fee) in
  Ok tick.
End TickIndex.

End Pool000.

(** ** Vocabulary of the specification *)

Definition sumBalances (l : list Coin) : Z :=
  fold_right (fun c acc => balance c + acc) 0 l.

(** [sorted] is [coins] in descending order of balance, records of equal
    balance in their order of arrival. *)
Definition descendingStable (coins sorted : list Coin) : Prop :=
  Permutation coins sorted
  /\ StronglySorted (fun a b => balance b <= balance a) sorted
  /\ forall k, filter (fun c => balance c =? k) sorted
               = filter (fun c => balance c =? k) coins.

(** [ids] names the minimal prefix of the descending order that covers
    [target]: all but its last record stay below the target, and it either
    reaches the target or is the whole list. *)
Definition minimalPrefixSelection (coins : list Coin) (target : Q)
           (ids : list string) : Prop :=
  exists sel rest,
    ids = map coinObjectId sel
    /\ descendingStable coins (sel ++ rest)
    /\ (sel <> [] -> (inject_Z (sumBalances (removelast sel)) < target)%Q)
    /\ ((target <= inject_Z (sumBalances sel))%Q \/ rest = []).

(** A balance the sort sees exactly: non-negative and unchanged by
    [Number]. *)
Definition exactBalance (c : Coin) : Prop :=
  0 <= balance c /\ JS.Number (balance c) = balance c.

(** The records behind the ids [collect] gathers. *)
Fixpoint collected (coins : list Coin) (totalAmount needAmount : Decimal.t)
  : list Coin :=
  match coins with
  | [] => []
  | coin :: rest =>
      let totalAmount := Decimal.add totalAmount (Decimal.ofZ (balance coin)) in
      if Decimal.gte totalAmount needAmount then [coin]
      else coin :: collected rest totalAmount needAmount
  end.



(** The X64 helpers and the rounding modes, in the specification's words. *)
Module Spec.

Definition toX64 (value : Q) : Q := (value * inject_Z (2 ^ 64))%Q.
Definition fromX64 (value : Q) : Q := (value / inject_Z (2 ^ 64))%Q.

(** [ceil] is the default; [floor] when explicitly requested. *)
Definition rounding (mode : option bool) : Q -> Z :=
  match mode with
  | Some false => Qfloor
  | _ => Qceiling
  end.

End Spec.


(** A non-empty run of word characters, and a [pkg::module::name] segment. *)
Fixpoint allWord (s : string) : bool :=
  match s with
  | EmptyString => true
  | String c s' => JS.isWordChar c && allWord s'
  end.

Definition isWord (w : string) : Prop := w <> EmptyString /\ allWord w = true.

Definition typePath (s : string) : Prop :=
  exists w1 w2 w3,
    isWord w1 /\ isWord w2 /\ isWord w3
    /\ s = (w1 ++ "::" ++ w2 ++ "::" ++ w3)%string.

(** The current square-root price brought into the range. *)
Definition clampPrice (pCurrent pLower pUpper : Z) : Z :=
  Z.max pLower (Z.min pCurrent pUpper).

(** The exact amounts of liquidity [L] at a square-root price [p] inside
    the range: [x = L * (pb - p) / (p * pb)] and [y = L * (p - pa)]. *)
Definition amountAAt (L p pUpper : Z) : Q :=
  (Spec.toX64 (inject_Z L) * (inject_Z pUpper - inject_Z p)
   / (inject_Z p * inject_Z pUpper))%Q.

Definition amountBAt (L p pLower : Z) : Q :=
  Spec.fromX64 (inject_Z L * (inject_Z p - inject_Z pLower))%Q.

(** The two move-call arguments [createPool] and [addLiquidity] build from
    a tick: [Math.abs(tick).toFixed(0)] as [u32] and [tick < 0] as [bool]. *)
Definition tickArguments (tick : Z) : Z * bool := (Z.abs tick, tick <? 0).

(** [r] does not start with a word character. *)
Definition noWordHead (r : string) : Prop :=
  match r with
  | EmptyString => True
  | String c _ => JS.isWordChar c = false
  end.

(** The text of a pool object's type: the pool struct applied to the two
    coin types and the fee type. *)
Definition poolTypeText (pool coinA coinB fee : string) : string :=
  (pool ++ "<" ++ coinA ++ ", " ++ coinB ++ ", " ++ fee ++ ">")%string.

(** ** The specification's scenarios and the test-suite, evaluated *)

Example selectCoinIds_scenario :
  Pool001.selectCoinIds [[mkCoin "A" 30; mkCoin "B" 50]; [mkCoin "C" 20]] 60%Q
  = ["B"%string; "A"%string].
Proof. reflexivity. Qed.

Example number_rounds :
  JS.Number (2 ^ 53 + 1) = 2 ^ 53 /\ JS.Number (2 ^ 53 + 3) = 2 ^ 53 + 4
  /\ JS.Number (2 ^ 64 - 1) = 2 ^ 64 /\ JS.Number 12345 = 12345.
Proof. repeat split; reflexivity. Qed.

Example isSUI_valid_literals :
  map Pool001.isSUI ["a::sui::SUI"; "a.sui"; "SUI"; "sui"; "suik"]%string
  = [true; true; true; true; true].
Proof. reflexivity. Qed.

Example isSUI_invalid_literals :
  map Pool001.isSUI ["a::sbui"; "a.su"; "suki"; "s ui"; "sometext"]%string
  = [false; false; false; false; false].
Proof. reflexivity. Qed.

Example parsePoolType_pool :
  Pool000.parsePoolType
    "0x5::pool::Pool<0x2::sui::SUI, 0x7::usdc::USDC, 0x5::fee3000bps::FEE3000BPS>"
  = Ok ("0x2::sui::SUI", "0x7::usdc::USDC", "0x5::fee3000bps::FEE3000BPS")%string.
Proof. reflexivity. Qed.

Example parsePoolType_coin :
  Pool000.parsePoolType "0x2::coin::Coin<0x2::sui::SUI>" = Throw "Invalid pool type".
Proof. reflexivity. Qed.

Example matchAll_resumes_after_match :
  JS.matchAll "a::b::c::d::e x::y:z::w::v" = ["a::b::c"; "z::w::v"]%string.
Proof. reflexivity. Qed.

Example minimumAmount_scenario :
  Pool000.getMinimumAmountBySlippage 1000%Q 1%Q = Ok 990.
Proof. reflexivity. Qed.

(** * Properties *)

(** ** The sort *)

Section SortByKey.
Context {A : Type} (key : A -> Z).

(** A comparator of the shape [key b - key a] sorts by descending key. *)
Let compare (a b : A) : Z := key b - key a.
Let before (a b : A) : Prop := key b <= key a.

Lemma insert_perm x l : Permutation (x :: l) (JS.insert compare x l).
Proof.
  induction l as [|y l IH]; simpl; [reflexivity|].
  destruct (compare x y <=? 0); [reflexivity|].
  rewrite perm_swap. now apply perm_skip.
Qed.

Lemma sort_perm l : Permutation l (JS.sort compare l).
Proof.
  induction l as [|x l IH]; simpl; [constructor|].
  rewrite <- insert_perm. now apply perm_skip.
Qed.

Lemma insert_Forall (P : A -> Prop) x l :
  P x -> Forall P l -> Forall P (JS.insert compare x l).
Proof.
  intros Hx Hl. eapply Permutation_Forall; [apply insert_perm|].
  now constructor.
Qed.

Lemma insert_sorted x l :
  StronglySorted before l -> StronglySorted before (JS.insert compare x l).
Proof.
  induction 1 as [|y l Hs IH Hy]; simpl.
  - repeat constructor.
  - destruct (Z.leb_spec (compare x y) 0) as [Hle|Hgt]; unfold compare in *.
    + constructor; [now constructor|].
      constructor; [unfold before; lia|].
      eapply Forall_impl; [|exact Hy]. unfold before. intros; lia.
    + constructor; [exact IH|].
      apply insert_Forall; [unfold before; lia | exact Hy].
Qed.

Lemma sort_sorted l : StronglySorted before (JS.sort compare l).
Proof.
  induction l as [|x l IH]; simpl; [constructor | now apply insert_sorted].
Qed.

(** Stability: the elements of one key keep their order of arrival. *)
Lemma insert_filter k x l :
  filter (fun a => key a =? k) (JS.insert compare x l)
  = filter (fun a => key a =? k) (x :: l).
Proof.
  induction l as [|y l IH]; [reflexivity|].
  cbn [JS.insert].
  destruct (Z.leb_spec (compare x y) 0) as [Hle|Hgt]; [reflexivity|].
  unfold compare in Hgt. cbn [filter] in *. rewrite IH.
  destruct (Z.eqb_spec (key x) k) as [Hx|Hx];
    destruct (Z.eqb_spec (key y) k) as [Hy|Hy];
    try reflexivity; lia.
Qed.

Lemma sort_stable k l :
  filter (fun a => key a =? k) (JS.sort compare l)
  = filter (fun a => key a =? k) l.
Proof.
  induction l as [|x l IH]; [reflexivity|].
  cbn [JS.sort fold_right]. fold (JS.sort compare l).
  rewrite insert_filter. cbn [filter]. now rewrite IH.
Qed.

Lemma sort_head_max l x l' :
  JS.sort compare l = x :: l' -> forall y, In y l -> key y <= key x.
Proof.
  intros Hs y Hy.
  pose proof (sort_sorted l) as Hsorted. rewrite Hs in Hsorted.
  apply StronglySorted_inv in Hsorted as [_ Hall].
  apply (Permutation_in _ (sort_perm l)) in Hy. rewrite Hs in Hy.
  destruct Hy as [->|Hy]; [lia|].
  rewrite Forall_forall in Hall. now apply Hall.
Qed.

End SortByKey.

(** ** Coin selection *)

Lemma sumBalances_cons c l : sumBalances (c :: l) = balance c + sumBalances l.
Proof. reflexivity. Qed.

Lemma collect_collected coins ids total need :
  Pool001.collect coins ids total need
  = ids ++ map coinObjectId (collected coins total need).
Proof.
  revert ids total. induction coins as [|c coins IH]; intros ids total; simpl.
  - now rewrite app_nil_r.
  - destruct (Decimal.gte _ need); [reflexivity|].
    rewrite IH, <- app_assoc. reflexivity.
Qed.

Lemma collected_prefix coins total need :
  exists rest, coins = collected coins total need ++ rest
    /\ ((need <= total + inject_Z (sumBalances (collected coins total need)))%Q
        \/ rest = []).
Proof.
  revert total. induction coins as [|c coins IH]; intros total; simpl.
  - exists []. split; [reflexivity | now right].
  - unfold Decimal.gte, Decimal.add, Decimal.ofZ.
    destruct (Qle_bool need (total + inject_Z (balance c))) eqn:E.
    + exists coins. split; [reflexivity|]. left.
      apply Qle_bool_iff in E. simpl. rewrite Z.add_0_r. exact E.
    + destruct (IH (total + inject_Z (balance c))%Q) as (rest & Heq & Hcov).
      exists rest. split; [simpl; now rewrite <- Heq|].
      destruct Hcov as [Hcov|Hcov]; [left | now right].
      rewrite sumBalances_cons, inject_Z_plus. lra.
Qed.

Lemma collected_nonempty c coins total need : collected (c :: coins) total need <> [].
Proof. simpl. destruct (Decimal.gte _ _); discriminate. Qed.

Lemma collected_below coins total need :
  (total < need)%Q ->
  collected coins total need <> [] ->
  (total + inject_Z (sumBalances (removelast (collected coins total need))) < need)%Q.
Proof.
  revert total. induction coins as [|c coins IH]; intros total Hlt Hne.
  - now contradiction Hne.
  - cbn [collected] in *. unfold Decimal.gte, Decimal.add, Decimal.ofZ in *.
    destruct (Qle_bool need (total + inject_Z (balance c))) eqn:E.
    + simpl. change (inject_Z 0) with 0%Q. lra.
    + assert (Hlt' : (total + inject_Z (balance c) < need)%Q).
      { apply Qnot_le_lt. intros H. apply Qle_bool_iff in H. congruence. }
      destruct coins as [|c' coins].
      * simpl. change (inject_Z 0) with 0%Q. lra.
      * specialize (IH _ Hlt' (collected_nonempty _ _ _ _)).
        remember (collected (c' :: coins) (total + inject_Z (balance c))%Q need) as sel eqn:Hsel.
        assert (Hn : sel <> []) by (subst sel; apply collected_nonempty).
        destruct sel as [|s0 sel]; [now contradiction Hn|].
        change (removelast (c :: s0 :: sel)) with (c :: removelast (s0 :: sel)).
        rewrite sumBalances_cons, inject_Z_plus. lra.
Qed.

Lemma StronglySorted_weaken {A} (R R' : A -> A -> Prop) l :
  (forall a b, In a l -> In b l -> R a b -> R' a b) ->
  StronglySorted R l -> StronglySorted R' l.
Proof.
  intros Himp Hs. induction Hs as [|x l Hs IH Hx]; constructor.
  - apply IH. intros a b Ha Hb. apply Himp; now right.
  - rewrite Forall_forall in *. intros b Hb.
    apply Himp; [now left | now right | now apply Hx].
Qed.

(** Every balance up to [2^53] is seen exactly by the sort. *)
Lemma exactBalance_small (c : Coin) :
  0 <= balance c <= 2 ^ 53 -> exactBalance c.
Proof.
  intros [H0 H53]. split; [exact H0|]. unfold JS.Number.
  destruct (Z.ltb_spec (Z.abs (balance c)) (2 ^ 53)) as [_|Hge]; [reflexivity|].
  assert (E : balance c = 2 ^ 53) by lia. rewrite E. reflexivity.
Qed.

Lemma sortCoins_descendingStable coins :
  Forall exactBalance coins -> descendingStable coins (Pool001.sortCoins coins).
Proof.
  intros Hex.
  pose (key := fun c : Coin => JS.Number (balance c)).
  assert (Hperm : Permutation coins (Pool001.sortCoins coins))
    by apply (sort_perm key).
  assert (Hex' : Forall exactBalance (Pool001.sortCoins coins))
    by (eapply Permutation_Forall; eassumption).
  rewrite Forall_forall in Hex, Hex'.
  repeat split.
  - exact Hperm.
  - eapply StronglySorted_weaken; [|apply (sort_sorted key)].
    intros a b Ha Hb. unfold key.
    destruct (Hex' a Ha) as [_ ->], (Hex' b Hb) as [_ ->]. trivial.
  - intros k.
    rewrite (filter_ext_in (fun c => balance c =? k) (fun c => key c =? k)
               (Pool001.sortCoins coins)).
    2:{ intros c Hc. unfold key. now destruct (Hex' c Hc) as [_ ->]. }
    rewrite (filter_ext_in (fun c => balance c =? k) (fun c => key c =? k) coins).
    2:{ intros c Hc. unfold key. now destruct (Hex c Hc) as [_ ->]. }
    apply (sort_stable key).
Qed.

(** C1, as the code has it: for a positive target and balances the sort
    compares exactly, the ids returned are those of the minimal prefix of
    the stable descending order of the records that covers the target: the
    records before the last sum to less than the target, and either the sum
    reaches the target or every record is returned.  No error is raised:
    the function is total. *)
Theorem selectCoinIds_minimal_prefix (pages : list (list Coin)) (target : Q) :
  (0 < target)%Q ->
  Forall exactBalance (concat pages) ->
  minimalPrefixSelection (concat pages) target
    (Pool001.selectCoinIds pages target).
Proof.
  intros Hpos Hex. unfold Pool001.selectCoinIds.
  rewrite collect_collected.
  destruct (collected_prefix (Pool001.sortCoins (concat pages)) 0%Q target)
    as (rest & Heq & Hcov).
  exists (collected (Pool001.sortCoins (concat pages)) 0%Q target), rest.
  split; [reflexivity|]. split; [|split].
  - rewrite <- Heq. now apply sortCoins_descendingStable.
  - intros Hne. pose proof (collected_below _ _ _ Hpos Hne). lra.
  - destruct Hcov as [Hcov|Hcov]; [left; lra | now right].
Qed.

Lemma selectCoinIds_minimal_prefix_witness :
  minimalPrefixSelection [mkCoin "A" 30; mkCoin "B" 50; mkCoin "C" 20] 60%Q
    ["B"%string; "A"%string].
Proof.
  apply (selectCoinIds_minimal_prefix
           [[mkCoin "A" 30; mkCoin "B" 50]; [mkCoin "C" 20]] 60%Q).
  - reflexivity.
  - repeat constructor; simpl; lia.
Defined.

(** C1 fails as stated in two ways: with target zero the single record
    returned leaves an empty sum that is not below the target; and two
    balances above [2^53] that [Number] maps to the same double stay in
    arrival order, the smaller first. *)
Lemma selectCoinIds_minimal_prefix_counterexample :
  ~ minimalPrefixSelection [mkCoin "A" 5] 0%Q
      (Pool001.selectCoinIds [[mkCoin "A" 5]] 0%Q)
  /\ ~ minimalPrefixSelection
        [mkCoin "A" 9007199254740992; mkCoin "B" 9007199254740993] 1%Q
        (Pool001.selectCoinIds
           [[mkCoin "A" 9007199254740992; mkCoin "B" 9007199254740993]] 1%Q).
Proof.
  split.
  - intros (sel & rest & Hids & _ & Hbelow & _).
    change (Pool001.selectCoinIds [[mkCoin "A" 5]] 0%Q) with ["A"%string] in Hids.
    destruct sel as [|x [|y sel]]; try discriminate Hids.
    assert (H : (inject_Z (sumBalances (removelast [x])) < 0)%Q)
      by (apply Hbelow; discriminate).
    simpl in H. revert H. apply Qlt_irrefl.
  - intros (sel & rest & Hids & (Hperm & Hsorted & _) & _ & _).
    assert (E : Pool001.selectCoinIds
                  [[mkCoin "A" 9007199254740992; mkCoin "B" 9007199254740993]] 1%Q
                = ["A"%string]) by (vm_compute; reflexivity).
    rewrite E in Hids. clear E.
    destruct sel as [|x [|y sel]]; try discriminate Hids.
    injection Hids as Hx. simpl in Hsorted, Hperm.
    apply StronglySorted_inv in Hsorted as [_ Hall].
    rewrite Forall_forall in Hall.
    assert (HB : In (mkCoin "B" 9007199254740993) (x :: rest))
      by (eapply Permutation_in; [exact Hperm | simpl; auto]).
    assert (HxIn : In x [mkCoin "A" 9007199254740992; mkCoin "B" 9007199254740993])
      by (eapply Permutation_in; [symmetry; exact Hperm | simpl; auto]).
    destruct HB as [HB|HB].
    + subst x. discriminate Hx.
    + apply Hall in HB. simpl in HB.
      destruct HxIn as [<-|[<-|[]]]; simpl in HB; [lia | discriminate Hx].
Qed.

Lemma sortCoins_nil_inv coins : Pool001.sortCoins coins = [] -> coins = [].
Proof.
  intros H. apply Permutation_nil. rewrite <- H. symmetry.
  apply (sort_perm (fun c : Coin => JS.Number (balance c))).
Qed.

(** C4, as the code has it: with target zero the selector returns the empty
    sequence only when there is no record; otherwise (balances being
    non-negative) it returns exactly one id, that of the record the sort
    places first, one of largest balance as the sort compares them. *)
Theorem selectCoinIds_zero_target (pages : list (list Coin)) :
  Forall (fun c => 0 <= balance c) (concat pages) ->
  Pool001.selectCoinIds pages 0%Q
  = map coinObjectId (firstn 1 (Pool001.sortCoins (concat pages)))
  /\ (concat pages = [] -> Pool001.selectCoinIds pages 0%Q = [])
  /\ (concat pages <> [] ->
      exists c, In c (concat pages)
        /\ Pool001.selectCoinIds pages 0%Q = [coinObjectId c]
        /\ forall c', In c' (concat pages) ->
             JS.Number (balance c') <= JS.Number (balance c)).
Proof.
  intros Hpos. unfold Pool001.selectCoinIds.
  pose (key := fun c : Coin => JS.Number (balance c)).
  destruct (Pool001.sortCoins (concat pages)) as [|c sorted] eqn:Hsort.
  - apply sortCoins_nil_inv in Hsort. rewrite Hsort.
    repeat split; try reflexivity. intros H. now contradiction H.
  - assert (Hin : In c (concat pages)).
    { eapply Permutation_in; [symmetry; apply (sort_perm key)|].
      change (In c (Pool001.sortCoins (concat pages))).
      rewrite Hsort. now left. }
    assert (Hc : 0 <= balance c) by (rewrite Forall_forall in Hpos; auto).
    assert (Hsel : Pool001.collect (c :: sorted) [] 0%Q 0%Q = [coinObjectId c]).
    { simpl. unfold Decimal.gte, Decimal.add, Decimal.ofZ.
      assert (E : Qle_bool 0 (0 + inject_Z (balance c)) = true).
      { apply Qle_bool_iff. rewrite Qplus_0_l.
        change 0%Q with (inject_Z 0). now rewrite <- Zle_Qle. }
      now rewrite E. }
    rewrite Hsel. split; [reflexivity|]. split.
    + intros H. rewrite H in Hin. destruct Hin.
    + intros _. exists c. repeat split; trivial.
      intros c' Hc'. apply (sort_head_max key _ _ _ Hsort c' Hc').
Qed.

Lemma selectCoinIds_zero_target_witness :
  Pool001.selectCoinIds [[mkCoin "A" 30; mkCoin "B" 50]; [mkCoin "C" 20]] 0%Q
  = ["B"%string].
Proof.
  apply (selectCoinIds_zero_target
           [[mkCoin "A" 30; mkCoin "B" 50]; [mkCoin "C" 20]]).
  repeat constructor; simpl; lia.
Defined.

(** C4 fails as stated: one record and target zero give that record. *)
Lemma selectCoinIds_zero_target_counterexample :
  Pool001.selectCoinIds [[mkCoin "A" 5]] 0%Q = ["A"%string]
  /\ Pool001.selectCoinIds [[mkCoin "A" 5]] 0%Q <> [].
Proof. split; [reflexivity | discriminate]. Qed.

(** ** Slippage *)












(** ** Tick snapping *)

Lemma snap_toward_zero (tick spacing : Z) :
  0 < spacing ->
  tick - JS.rem tick spacing = spacing * (tick ÷ spacing)
  /\ JS.rem (tick - JS.rem tick spacing) spacing = 0
  /\ Z.abs (tick - JS.rem tick spacing) <= Z.abs tick
  /\ Z.abs (JS.rem tick spacing) < spacing
  /\ (0 <= tick -> tick - JS.rem tick spacing = spacing * (tick / spacing))
  /\ (tick <= 0 -> tick <= tick - JS.rem tick spacing).
Proof.
  intros Hs. unfold JS.rem.
  assert (Hq : tick - Z.rem tick spacing = spacing * (tick ÷ spacing)).
  { pose proof (Z.quot_rem' tick spacing). lia. }
  assert (Hrange : 0 <= Z.rem tick spacing <= tick /\ Z.rem tick spacing < spacing
                   \/ tick <= Z.rem tick spacing <= 0
                      /\ - spacing < Z.rem tick spacing).
  { destruct (Z.le_gt_cases 0 tick) as [Hpos|Hneg].
    - left. pose proof (Z.rem_bound_pos tick spacing Hpos Hs).
      pose proof (Z.rem_le tick spacing Hpos Hs). lia.
    - right. assert (Ha : 0 <= - tick) by lia.
      pose proof (Z.rem_bound_pos (- tick) spacing Ha Hs).
      pose proof (Z.rem_le (- tick) spacing Ha Hs).
      rewrite Z.rem_opp_l in * by lia. lia. }
  split; [exact Hq|]. split; [|split; [|split; [|split]]].
  - rewrite Hq, Z.mul_comm. apply Z.rem_mul. lia.
  - lia.
  - lia.
  - intros Hpos. rewrite Hq, Z.quot_div_nonneg by lia. reflexivity.
  - intros Hneg. lia.
Qed.

(** C5, as the code has it: for a positive tick spacing the adjusted tick is
    a multiple of the spacing, namely the derived tick snapped toward zero:
    [spacing * trunc(tick / spacing)], less than one spacing away and never
    larger in magnitude.  That is snapping down for a tick that is not
    negative, and snapping up for a negative one. *)
Theorem getTickIndex_snaps_toward_zero
        (priceToTickIndex : Decimal.t -> Z -> Z -> result Z)
        (price : Decimal.t) (coinA coinB : CoinMetadata) (fee : Fee) (derived : Z) :
  0 < tickSpacing fee ->
  priceToTickIndex price (decimals coinA) (decimals coinB) = Ok derived ->
  exists tick,
    Pool000.getTickIndex priceToTickIndex price coinA coinB fee = Ok tick
    /\ JS.rem tick (tickSpacing fee) = 0
    /\ tick = tickSpacing fee * (derived ÷ tickSpacing fee)
    /\ Z.abs tick <= Z.abs derived
    /\ Z.abs (derived - tick) < tickSpacing fee
    /\ (0 <= derived -> tick = tickSpacing fee * (derived / tickSpacing fee))
    /\ (derived <= 0 -> derived <= tick).
Proof.
  intros Hs Hderived. unfold Pool000.getTickIndex. rewrite Hderived. simpl.
  destruct (snap_toward_zero derived (tickSpacing fee) Hs)
    as (Hq & Hrem & Habs & Hb & Hdown & Hup).
  eexists. split; [reflexivity|].
  repeat split; trivial.
  replace (derived - (derived - JS.rem derived (tickSpacing fee)))
    with (JS.rem derived (tickSpacing fee)) by lia.
  exact Hb.
Qed.

Lemma getTickIndex_snaps_toward_zero_witness :
  exists tick,
    Pool000.getTickIndex (fun _ _ _ => Ok 12347) 1%Q
      {| decimals := 9 |} {| decimals := 6 |}
      {| objectId := "0x1"; type := "0x5::fee3000bps::FEE3000BPS";
         tickSpacing := 60 |} = Ok tick
    /\ JS.rem tick 60 = 0.
Proof.
  destruct (getTickIndex_snaps_toward_zero (fun _ _ _ => Ok 12347) 1%Q
              {| decimals := 9 |} {| decimals := 6 |}
              {| objectId := "0x1"; type := "0x5::fee3000bps::FEE3000BPS";
                 tickSpacing := 60 |} 12347)
    as (tick & Htick & Hrem & _).
  - simpl. lia.
  - reflexivity.
  - exists tick. split; assumption.
Defined.

(** C5 fails as stated for a negative tick: -5 with spacing 2 becomes -4,
    which is above -5; snapping down would give -6. *)
Lemma getTickIndex_snaps_down_counterexample :
  Pool000.getTickIndex (fun _ _ _ => Ok (-5)) (1 # 2)%Q
    {| decimals := 9 |} {| decimals := 9 |}
    {| objectId := "0x1"; type := "0x5::fee::FEE"; tickSpacing := 2 |}
  = Ok (-4)
  /\ -5 < -4
  /\ 2 * (-5 / 2) = -6.
Proof. repeat split; reflexivity. Qed.

(** ** Token amounts of a liquidity position *)

Lemma product_nonzero (a b : Z) :
  0 < a -> 0 < b ->
  Qeq_bool (Decimal.mul (Decimal.ofZ a) (Decimal.ofZ b)) 0 = false.
Proof.
  intros Ha Hb. unfold Decimal.mul, Decimal.ofZ.
  destruct (Qeq_bool (inject_Z a * inject_Z b) 0) eqn:E; [|reflexivity].
  apply Qeq_bool_eq in E. exfalso.
  assert (H : (0 < inject_Z a * inject_Z b)%Q).
  { apply Qmult_lt_0_compat; change 0%Q with (inject_Z 0);
      now rewrite <- Zlt_Qlt. }
  rewrite E in H. revert H. apply Qlt_irrefl.
Qed.

Lemma rounding_zero (mode : option bool) : Spec.rounding mode 0%Q = 0.
Proof. destruct mode as [[|]|]; reflexivity. Qed.

Lemma methodName_rounding cur low up liq mode :
  Pool000.methodName
    {| currentSqrtPrice := cur; lowerSqrtPrice := low; upperSqrtPrice := up;
       liquidity := liq; ceil := mode |}
  = Spec.rounding mode.
Proof. destruct mode as [[|]|]; reflexivity. Qed.




(** The two roundings of [fromX64] as integer divisions. *)
Lemma fromX64_floor (n : Z) :
  Spec.rounding (Some false) (Spec.fromX64 (inject_Z n)) = n / 2 ^ 64.
Proof. unfold Spec.fromX64. cbn [Spec.rounding]. now rewrite <- Zdiv_Qdiv. Qed.

Lemma fromX64_ceil (n : Z) :
  Spec.rounding None (Spec.fromX64 (inject_Z n)) = - (- n / 2 ^ 64).
Proof.
  unfold Spec.fromX64. cbn [Spec.rounding]. unfold Qceiling. f_equal.
  rewrite Zdiv_Qdiv. apply Qfloor_comp. rewrite inject_Z_opp.
  unfold Qdiv. ring.
Qed.

(** ** Strings *)




Lemma string_app_assoc (a b c : string) :
  ((a ++ b) ++ c = a ++ (b ++ c))%string.
Proof. induction a as [|x a IH]; simpl; [reflexivity | now rewrite IH]. Qed.






(** ** Price conversions *)

Module PriceMonotone.
Import Reals Qreals R_Ifp Lra.
Local Open Scope R_scope.

Lemma Int_part_le (r1 r2 : R) : r1 <= r2 -> (Int_part r1 <= Int_part r2)%Z.
Proof.
  intros Hle.
  destruct (base_Int_part r1) as [H1 _], (base_Int_part r2) as [_ H2].
  apply Z.lt_succ_r, lt_IZR. unfold Z.succ. rewrite plus_IZR. lra.
Qed.

Lemma effectiveRatio_pos (price : Q) (dA dB : Z) :
  (0 < price)%Q -> 0 < MathUtil.effectiveRatio price dA dB.
Proof.
  intros Hp. unfold MathUtil.effectiveRatio.
  apply Rmult_lt_0_compat.
  - apply Qlt_Rlt in Hp. now rewrite RMicromega.Q2R_0 in Hp.
  - apply powerRZ_lt. lra.
Qed.

Lemma effectiveRatio_lt (price1 price2 : Q) (dA dB : Z) :
  (price1 < price2)%Q ->
  MathUtil.effectiveRatio price1 dA dB < MathUtil.effectiveRatio price2 dA dB.
Proof.
  intros Hlt. unfold MathUtil.effectiveRatio.
  apply Rmult_lt_compat_r; [apply powerRZ_lt; lra | now apply Qlt_Rlt].
Qed.

Lemma positive_price_accepted (price : Q) :
  (0 < price)%Q -> Decimal.lte price 0%Q = false.
Proof.
  intros Hp. unfold Decimal.lte.
  destruct (Qle_bool price 0) eqn:E; [|reflexivity].
  apply Qle_bool_iff in E. exfalso. apply (Qlt_not_le _ _ Hp E).
Qed.

(** C8: for fixed decimals both conversions accept every positive price
    and are monotone in it. *)
Theorem price_conversions_monotone (price1 price2 : Q) (dA dB : Z) :
  (0 < price1)%Q -> (price1 < price2)%Q ->
  exists tick1 tick2 sqrt1 sqrt2,
    MathUtil.priceToTickIndex price1 dA dB = Ok tick1
    /\ MathUtil.priceToTickIndex price2 dA dB = Ok tick2
    /\ (tick1 <= tick2)%Z
    /\ MathUtil.priceToSqrtPriceX64 price1 dA dB = Ok sqrt1
    /\ MathUtil.priceToSqrtPriceX64 price2 dA dB = Ok sqrt2
    /\ (sqrt1 <= sqrt2)%Z.
Proof.
  intros Hp1 Hlt.
  assert (Hp2 : (0 < price2)%Q) by (eapply Qlt_trans; eassumption).
  pose proof (effectiveRatio_pos price1 dA dB Hp1) as Hr1.
  pose proof (effectiveRatio_lt price1 price2 dA dB Hlt) as Hr.
  unfold MathUtil.priceToTickIndex, MathUtil.priceToSqrtPriceX64.
  rewrite !positive_price_accepted by assumption.
  do 4 eexists. repeat split.
  - apply Int_part_le.
    assert (Hbase : 0 < ln (10001 / 10000)).
    { rewrite <- ln_1. apply ln_increasing; lra. }
    apply Rmult_le_compat_r.
    + left. now apply Rinv_0_lt_compat.
    + left. now apply ln_increasing.
  - apply Int_part_le. apply Rmult_le_compat_r.
    + apply IZR_le. lia.
    + apply sqrt_le_1_alt. lra.
Qed.

Lemma price_conversions_monotone_witness :
  exists tick1 tick2 sqrt1 sqrt2,
    MathUtil.priceToTickIndex 1%Q 9 6 = Ok tick1
    /\ MathUtil.priceToTickIndex 2%Q 9 6 = Ok tick2
    /\ (tick1 <= tick2)%Z
    /\ MathUtil.priceToSqrtPriceX64 1%Q 9 6 = Ok sqrt1
    /\ MathUtil.priceToSqrtPriceX64 2%Q 9 6 = Ok sqrt2
    /\ (sqrt1 <= sqrt2)%Z.
Proof.
  apply (price_conversions_monotone 1%Q 2%Q 9 6); reflexivity.
Defined.

End PriceMonotone.

(** * Further properties of the code *)

(** ** Coin selection: what is returned for any target *)

Lemma sumBalances_app (l1 l2 : list Coin) :
  sumBalances (l1 ++ l2) = sumBalances l1 + sumBalances l2.
Proof.
  induction l1 as [|c l1 IH]; [reflexivity|].
  cbn [app]. rewrite !sumBalances_cons, IH. lia.
Qed.

Lemma sumBalances_perm (l1 l2 : list Coin) :
  Permutation l1 l2 -> sumBalances l1 = sumBalances l2.
Proof.
  induction 1; rewrite ?sumBalances_cons in *; lia.
Qed.

Lemma sumBalances_nonneg (l : list Coin) :
  Forall (fun c => 0 <= balance c) l -> 0 <= sumBalances l.
Proof.
  induction 1 as [|c l Hc _ IH]; [reflexivity|].
  rewrite sumBalances_cons. lia.
Qed.

Lemma sortCoins_perm (coins : list Coin) :
  Permutation coins (Pool001.sortCoins coins).
Proof. apply (sort_perm (fun c : Coin => JS.Number (balance c))). Qed.

(** The selected records are a prefix of the sorted ones. *)
Lemma selectCoinIds_collected (pages : list (list Coin)) (target : Q) :
  exists rest,
    Pool001.selectCoinIds pages target
    = map coinObjectId
        (collected (Pool001.sortCoins (concat pages)) 0%Q target)
    /\ Pool001.sortCoins (concat pages)
       = collected (Pool001.sortCoins (concat pages)) 0%Q target ++ rest
    /\ ((target
         <= inject_Z (sumBalances
                        (collected (Pool001.sortCoins (concat pages)) 0%Q target)))%Q
        \/ rest = []).
Proof.
  unfold Pool001.selectCoinIds. rewrite collect_collected.
  destruct (collected_prefix (Pool001.sortCoins (concat pages)) 0%Q target)
    as (rest & Heq & Hcov).
  exists rest. split; [reflexivity|]. split; [exact Heq|].
  destruct Hcov as [Hcov|Hcov]; [left; lra | now right].
Qed.

(** X1: whatever the target (zero and negative included), the selector
    returns no id exactly when there is no record, never more ids than
    records, and the ids of a sub-collection of the records. *)
Theorem selectCoinIds_subcollection (pages : list (list Coin)) (target : Q) :
  (Pool001.selectCoinIds pages target = [] <-> concat pages = [])
  /\ (List.length (Pool001.selectCoinIds pages target)
      <= List.length (concat pages))%nat
  /\ exists sel rest,
       Pool001.selectCoinIds pages target = map coinObjectId sel
       /\ Permutation (concat pages) (sel ++ rest).
Proof.
  destruct (selectCoinIds_collected pages target) as (rest & Hids & Hsplit & _).
  pose proof (sortCoins_perm (concat pages)) as Hperm.
  split; [|split].
  - split.
    + intros Hnil. rewrite Hids in Hnil. apply map_eq_nil in Hnil.
      destruct (Pool001.sortCoins (concat pages)) as [|c sorted] eqn:Hs.
      * now apply sortCoins_nil_inv.
      * exfalso. revert Hnil. apply collected_nonempty.
    + intros Hnil. unfold Pool001.selectCoinIds. now rewrite Hnil.
  - rewrite Hids, length_map, (Permutation_length Hperm).
    set (sel := collected (Pool001.sortCoins (concat pages)) 0%Q target) in *.
    rewrite Hsplit, length_app. lia.
  - exists (collected (Pool001.sortCoins (concat pages)) 0%Q target), rest.
    split; [exact Hids | now rewrite <- Hsplit].
Qed.

(** X2: for non-negative balances the selection covers the target whenever
    the records together do, and is the whole collection when they fall
    short; this needs no exactness of the sort. *)
Theorem selectCoinIds_covers_when_funded (pages : list (list Coin)) (target : Q) :
  Forall (fun c => 0 <= balance c) (concat pages) ->
  exists sel rest,
    Pool001.selectCoinIds pages target = map coinObjectId sel
    /\ Permutation (concat pages) (sel ++ rest)
    /\ ((target <= inject_Z (sumBalances (concat pages)))%Q ->
        (target <= inject_Z (sumBalances sel))%Q)
    /\ ((inject_Z (sumBalances (concat pages)) < target)%Q -> rest = []).
Proof.
  intros Hpos.
  destruct (selectCoinIds_collected pages target) as (rest & Hids & Hsplit & Hcov).
  pose proof (sortCoins_perm (concat pages)) as Hperm.
  set (sel := collected (Pool001.sortCoins (concat pages)) 0%Q target) in *.
  assert (Hsum : sumBalances (concat pages) = sumBalances sel + sumBalances rest).
  { rewrite (sumBalances_perm _ _ Hperm), Hsplit. apply sumBalances_app. }
  assert (Hrest : 0 <= sumBalances rest).
  { apply sumBalances_nonneg.
    assert (Hall : Forall (fun c => 0 <= balance c) (sel ++ rest)).
    { rewrite <- Hsplit. eapply Permutation_Forall; eassumption. }
    apply Forall_app in Hall. tauto. }
  exists sel, rest. split; [exact Hids|]. split; [now rewrite <- Hsplit|]. split.
  - intros Hfunded. destruct Hcov as [Hcov| ->]; [exact Hcov|].
    cbn [sumBalances fold_right] in Hsum. rewrite Z.add_0_r in Hsum.
    now rewrite <- Hsum.
  - intros Hshort. destruct Hcov as [Hcov|Hcov]; [|exact Hcov].
    exfalso. rewrite Hsum, inject_Z_plus in Hshort.
    assert (Hr : (inject_Z 0 <= inject_Z (sumBalances rest))%Q)
      by now rewrite <- Zle_Qle.
    change (inject_Z 0) with 0%Q in Hr. lra.
Qed.

Lemma selectCoinIds_covers_when_funded_witness :
  exists sel rest,
    Pool001.selectCoinIds [[mkCoin "A" 30; mkCoin "B" 50]; [mkCoin "C" 20]] 60%Q
    = map coinObjectId sel
    /\ Permutation [mkCoin "A" 30; mkCoin "B" 50; mkCoin "C" 20] (sel ++ rest)
    /\ ((60 <= inject_Z 100)%Q -> (60 <= inject_Z (sumBalances sel))%Q)
    /\ ((inject_Z 100 < 60)%Q -> rest = []).
Proof.
  apply (selectCoinIds_covers_when_funded
           [[mkCoin "A" 30; mkCoin "B" 50]; [mkCoin "C" 20]] 60%Q).
  repeat constructor; simpl; lia.
Defined.

Lemma collected_grows (coins : list Coin) (total t1 t2 : Q) :
  (t1 <= t2)%Q ->
  exists extra, collected coins total t2 = collected coins total t1 ++ extra.
Proof.
  intros Hle. revert total. induction coins as [|c coins IH]; intros total.
  - now exists [].
  - cbn [collected]. unfold Decimal.gte, Decimal.add, Decimal.ofZ.
    destruct (Qle_bool t2 (total + inject_Z (balance c))) eqn:E2.
    + apply Qle_bool_iff in E2.
      assert (E1 : Qle_bool t1 (total + inject_Z (balance c)) = true)
        by (apply Qle_bool_iff; lra).
      rewrite E1. now exists [].
    + destruct (Qle_bool t1 (total + inject_Z (balance c))).
      * now exists (collected coins (total + inject_Z (balance c))%Q t2).
      * destruct (IH (total + inject_Z (balance c))%Q) as [extra ->].
        now exists extra.
Qed.

(** X3: raising the target only appends to the selection: the ids for a
    smaller target are a prefix of the ids for a larger one. *)
Theorem selectCoinIds_grows_with_target
        (pages : list (list Coin)) (target1 target2 : Q) :
  (target1 <= target2)%Q ->
  exists extra,
    Pool001.selectCoinIds pages target2
    = Pool001.selectCoinIds pages target1 ++ extra.
Proof.
  intros Hle. unfold Pool001.selectCoinIds. rewrite !collect_collected.
  destruct (collected_grows (Pool001.sortCoins (concat pages)) 0%Q _ _ Hle)
    as [extra ->].
  exists (map coinObjectId extra). cbn [app]. now rewrite map_app.
Qed.

Lemma selectCoinIds_grows_with_target_witness :
  exists extra,
    Pool001.selectCoinIds [[mkCoin "A" 30; mkCoin "B" 50]; [mkCoin "C" 20]] 90%Q
    = Pool001.selectCoinIds [[mkCoin "A" 30; mkCoin "B" 50]; [mkCoin "C" 20]] 40%Q
      ++ extra.
Proof.
  apply (selectCoinIds_grows_with_target
           [[mkCoin "A" 30; mkCoin "B" 50]; [mkCoin "C" 20]] 40%Q 90%Q).
  vm_compute. discriminate.
Defined.

(** ** Coin selection: fewest records *)

(** Among the records in descending order, no [n] of them sum to more than
    the first [n]. *)
Lemma top_sum_max (l : list Coin) :
  StronglySorted (fun a b => balance b <= balance a) l ->
  forall S R, Permutation l (S ++ R) ->
    sumBalances S <= sumBalances (firstn (List.length S) l).
Proof.
  induction 1 as [|x l Hs IH Hx]; intros S R Hperm.
  - apply Permutation_nil in Hperm. apply app_eq_nil in Hperm as [-> _].
    reflexivity.
  - assert (Hin : In x (S ++ R))
      by (eapply Permutation_in; [exact Hperm | now left]).
    apply in_app_or in Hin as [Hin|Hin].
    + apply in_split in Hin as (S1 & S2 & ->).
      rewrite <- app_assoc in Hperm. cbn [app] in Hperm.
      apply Permutation_cons_app_inv in Hperm. rewrite app_assoc in Hperm.
      specialize (IH _ _ Hperm).
      rewrite length_app in *. cbn [List.length].
      rewrite Nat.add_succ_r. cbn [firstn].
      rewrite sumBalances_app in *. rewrite !sumBalances_cons. lia.
    + apply in_split in Hin as (R1 & R2 & ->).
      rewrite app_assoc in Hperm.
      apply Permutation_cons_app_inv in Hperm. rewrite <- app_assoc in Hperm.
      destruct S as [|s S]; [reflexivity|].
      cbn [app] in Hperm.
      assert (Hs' : balance s <= balance x).
      { rewrite Forall_forall in Hx. apply Hx.
        eapply Permutation_in; [symmetry; exact Hperm | now left]. }
      assert (Hperm' : Permutation l (S ++ s :: R1 ++ R2))
        by (rewrite Hperm; apply Permutation_middle).
      specialize (IH _ _ Hperm').
      cbn [List.length firstn]. rewrite !sumBalances_cons. lia.
Qed.

Lemma firstn_sum_nonneg (l : list Coin) (n : nat) :
  Forall (fun c => 0 <= balance c) l -> 0 <= sumBalances (firstn n l).
Proof.
  intros Hl. apply sumBalances_nonneg.
  rewrite <- (firstn_skipn n l) in Hl. apply Forall_app in Hl. tauto.
Qed.

Lemma firstn_sum_mono (l : list Coin) :
  Forall (fun c => 0 <= balance c) l ->
  forall i j, (i <= j)%nat ->
    sumBalances (firstn i l) <= sumBalances (firstn j l).
Proof.
  induction 1 as [|c l Hc Hl IH]; intros i j Hij.
  - rewrite !firstn_nil. reflexivity.
  - destruct i as [|i].
    + change (sumBalances (firstn 0 (c :: l))) with 0.
      apply firstn_sum_nonneg. now constructor.
    + destruct j as [|j]; [lia|]. cbn [firstn].
      rewrite !sumBalances_cons. specialize (IH i j). lia.
Qed.

(** X4: for a positive target and balances the sort compares exactly, the
    selection uses the fewest records possible: every sub-collection of the
    records whose balances reach the target has at least as many records as
    the selector returns ids. *)
Theorem selectCoinIds_fewest_records
        (pages : list (list Coin)) (target : Q) (S R : list Coin) :
  (0 < target)%Q ->
  Forall exactBalance (concat pages) ->
  Permutation (concat pages) (S ++ R) ->
  (target <= inject_Z (sumBalances S))%Q ->
  (List.length (Pool001.selectCoinIds pages target) <= List.length S)%nat.
Proof.
  intros Hpos Hex Hperm Hcover.
  destruct (selectCoinIds_collected pages target) as (rest & Hids & Hsplit & _).
  destruct (sortCoins_descendingStable _ Hex) as (Hsortperm & Hsorted & _).
  set (sorted := Pool001.sortCoins (concat pages)) in *.
  set (sel := collected sorted 0%Q target) in *.
  rewrite Hids, length_map.
  destruct (Nat.le_gt_cases (List.length sel) (List.length S)) as [Hle|Hgt];
    [exact Hle | exfalso].
  assert (Hne : sel <> []) by (intros E; rewrite E in Hgt; simpl in Hgt; lia).
  pose proof (collected_below sorted 0%Q target Hpos Hne) as Hbelow.
  fold sel in Hbelow.
  assert (Hnonneg : Forall (fun c => 0 <= balance c) sorted).
  { eapply Permutation_Forall; [exact Hsortperm|].
    eapply Forall_impl; [|exact Hex]. now intros c [H0 _]. }
  assert (Htop : sumBalances S <= sumBalances (firstn (List.length S) sorted)).
  { apply (top_sum_max sorted Hsorted S R).
    now rewrite <- Hsortperm. }
  assert (Hmono : sumBalances (firstn (List.length S) sorted)
                  <= sumBalances (firstn (Nat.pred (List.length sel)) sorted))
    by (apply firstn_sum_mono; [exact Hnonneg | lia]).
  assert (Hlast : firstn (Nat.pred (List.length sel)) sorted = removelast sel).
  { rewrite Hsplit, firstn_app.
    replace (Nat.pred (List.length sel) - List.length sel)%nat with 0%nat by lia.
    cbn [firstn]. rewrite app_nil_r. symmetry. apply removelast_firstn_len. }
  rewrite Hlast in Hmono.
  assert (Hq : (inject_Z (sumBalances S)
                <= inject_Z (sumBalances (removelast sel)))%Q)
    by (rewrite <- Zle_Qle; lia).
  lra.
Qed.

Lemma selectCoinIds_fewest_records_witness :
  (List.length
     (Pool001.selectCoinIds [[mkCoin "A" 30; mkCoin "B" 50]; [mkCoin "C" 20]] 60%Q)
   <= List.length [mkCoin "A" 30; mkCoin "C" 20; mkCoin "B" 50])%nat.
Proof.
  apply (selectCoinIds_fewest_records
           [[mkCoin "A" 30; mkCoin "B" 50]; [mkCoin "C" 20]] 60%Q
           [mkCoin "A" 30; mkCoin "C" 20; mkCoin "B" 50] []).
  - reflexivity.
  - repeat constructor; simpl; lia.
  - simpl. apply perm_skip. apply perm_swap.
  - vm_compute. discriminate.
Defined.

(** ** Slippage: the minimum against the desired amount *)







(** ** Token amounts: sign, rounding gap, clamping and monotonicity *)

Lemma rounding_Qeq (mode : option bool) (x y : Q) :
  (x == y)%Q -> Spec.rounding mode x = Spec.rounding mode y.
Proof.
  intros H. destruct mode as [[|]|]; cbn [Spec.rounding];
    first [apply Qceiling_comp | apply Qfloor_comp]; exact H.
Qed.


Lemma rounding_floor_gap (mode : option bool) (x : Q) :
  Qfloor x <= Spec.rounding mode x <= Qfloor x + 1.
Proof.
  assert (Hgap : Qfloor x <= Qceiling x <= Qfloor x + 1).
  { split; [rewrite Zle_Qle; apply Qle_floor_ceiling|].
    pose proof (Qlt_floor x) as Hf. pose proof (Qceiling_lt x) as Hc.
    unfold Z.sub in Hc. rewrite inject_Z_plus in Hf, Hc.
    change (inject_Z 1) with 1%Q in Hf.
    assert (Hc' : (inject_Z (Qceiling x) - 1 < x)%Q) by exact Hc.
    apply Z.lt_succ_r. unfold Z.succ.
    rewrite Zlt_Qlt, !inject_Z_plus. change (inject_Z 1) with 1%Q. lra. }
  destruct mode as [[|]|]; cbn [Spec.rounding]; lia.
Qed.




(** The three branches as one formula at the clamped price. *)
Lemma amounts_clamped (pCurrent pLower pUpper L : Z) (mode : option bool) :
  0 < pLower -> 0 < pUpper -> pLower <= pUpper ->
  Pool000.getTokenAmountsFromLiquidity
    {| currentSqrtPrice := pCurrent; lowerSqrtPrice := pLower;
       upperSqrtPrice := pUpper; liquidity := Some L; ceil := mode |}
  = Some (Spec.rounding mode
            (amountAAt L (clampPrice pCurrent pLower pUpper) pUpper),
          Spec.rounding mode
            (amountBAt L (clampPrice pCurrent pLower pUpper) pLower)).
Proof.
  intros Hl Hu Hlu.
  unfold Pool000.getTokenAmountsFromLiquidity. rewrite methodName_rounding.
  unfold Pool000.tokenAmounts, Decimal.div, clampPrice.
  cbn [currentSqrtPrice lowerSqrtPrice upperSqrtPrice liquidity].
  destruct (Z.ltb_spec pCurrent pLower) as [Hlt|Hge].
  - rewrite product_nonzero by assumption.
    replace (Z.max pLower (Z.min pCurrent pUpper)) with pLower by lia.
    f_equal. f_equal. apply rounding_Qeq.
    unfold amountBAt, Spec.fromX64, Qdiv. ring.
  - destruct (Z.ltb_spec pCurrent pUpper) as [Hlt'|Hge'].
    + rewrite product_nonzero by lia.
      replace (Z.max pLower (Z.min pCurrent pUpper)) with pCurrent by lia.
      reflexivity.
    + replace (Z.max pLower (Z.min pCurrent pUpper)) with pUpper by lia.
      f_equal. f_equal. apply rounding_Qeq.
      unfold amountAAt, Spec.toX64, Qdiv. ring.
Qed.










Lemma clampPrice_range (pCurrent pLower pUpper : Z) :
  pLower <= pUpper ->
  pLower <= clampPrice pCurrent pLower pUpper <= pUpper
  /\ clampPrice (clampPrice pCurrent pLower pUpper) pLower pUpper
     = clampPrice pCurrent pLower pUpper.
Proof. unfold clampPrice. lia. Qed.



(** X8: with the same prices and liquidity, each amount under [ceil]
    (the default) is the amount under [floor] or one more, and the two
    modes return a pair for the same inputs. *)
Theorem getTokenAmountsFromLiquidity_ceil_floor_gap
        (cur low up : Z) (liq : option Z) (mode : option bool) :
  match Pool000.getTokenAmountsFromLiquidity
          {| currentSqrtPrice := cur; lowerSqrtPrice := low;
             upperSqrtPrice := up; liquidity := liq; ceil := Some false |},
        Pool000.getTokenAmountsFromLiquidity
          {| currentSqrtPrice := cur; lowerSqrtPrice := low;
             upperSqrtPrice := up; liquidity := liq; ceil := mode |}
  with
  | Some (floorA, floorB), Some (amountA, amountB) =>
      floorA <= amountA <= floorA + 1 /\ floorB <= amountB <= floorB + 1
  | None, None => True
  | _, _ => False
  end.
Proof.
  unfold Pool000.getTokenAmountsFromLiquidity. rewrite !methodName_rounding.
  change (Pool000.tokenAmounts
            {| currentSqrtPrice := cur; lowerSqrtPrice := low;
               upperSqrtPrice := up; liquidity := liq; ceil := mode |})
    with (Pool000.tokenAmounts
            {| currentSqrtPrice := cur; lowerSqrtPrice := low;
               upperSqrtPrice := up; liquidity := liq; ceil := Some false |}).
  destruct (Pool000.tokenAmounts _) as [[x y]|]; [|exact I].
  cbn [Spec.rounding]. split; apply rounding_floor_gap.
Qed.

(** X9: outside the range the current price does not matter: below the
    lower bound the amounts are those at the lower bound, at or above the
    upper bound those at the upper bound (positive bounds, lower at most
    upper). *)
Theorem getTokenAmountsFromLiquidity_clamps
        (pCurrent pLower pUpper L : Z) (mode : option bool) :
  0 < pLower -> 0 < pUpper -> pLower <= pUpper ->
  Pool000.getTokenAmountsFromLiquidity
    {| currentSqrtPrice := pCurrent; lowerSqrtPrice := pLower;
       upperSqrtPrice := pUpper; liquidity := Some L; ceil := mode |}
  = Pool000.getTokenAmountsFromLiquidity
      {| currentSqrtPrice := clampPrice pCurrent pLower pUpper;
         lowerSqrtPrice := pLower; upperSqrtPrice := pUpper;
         liquidity := Some L; ceil := mode |}.
Proof.
  intros Hl Hu Hlu. rewrite !amounts_clamped by assumption.
  destruct (clampPrice_range pCurrent pLower pUpper Hlu) as [_ ->].
  reflexivity.
Qed.

Lemma getTokenAmountsFromLiquidity_clamps_witness :
  Pool000.getTokenAmountsFromLiquidity
    {| currentSqrtPrice := 5; lowerSqrtPrice := 2 ^ 63;
       upperSqrtPrice := 2 ^ 65; liquidity := Some 1000; ceil := None |}
  = Pool000.getTokenAmountsFromLiquidity
      {| currentSqrtPrice := 2 ^ 63; lowerSqrtPrice := 2 ^ 63;
         upperSqrtPrice := 2 ^ 65; liquidity := Some 1000; ceil := None |}.
Proof.
  apply (getTokenAmountsFromLiquidity_clamps 5 (2 ^ 63) (2 ^ 65) 1000 None); lia.
Defined.





(** ** Ticks: snapping twice, order, and the arguments sent *)

(** X12: snapping is idempotent: a tick that [getTickIndex] returned is
    returned unchanged when it is derived again (positive spacing). *)
Theorem getTickIndex_idempotent
        (priceToTickIndex : Decimal.t -> Z -> Z -> result Z)
        (price : Decimal.t) (coinA coinB : CoinMetadata) (fee : Fee) (derived : Z) :
  0 < tickSpacing fee ->
  priceToTickIndex price (decimals coinA) (decimals coinB) = Ok derived ->
  exists tick,
    Pool000.getTickIndex priceToTickIndex price coinA coinB fee = Ok tick
    /\ Pool000.getTickIndex (fun _ _ _ => Ok tick) price coinA coinB fee
       = Ok tick.
Proof.
  intros Hs Hd. unfold Pool000.getTickIndex. rewrite Hd. cbn [bind].
  destruct (snap_toward_zero derived (tickSpacing fee) Hs) as (_ & Hrem & _).
  eexists. split; [reflexivity|]. rewrite Hrem. f_equal. lia.
Qed.

Lemma getTickIndex_idempotent_witness :
  exists tick,
    Pool000.getTickIndex (fun _ _ _ => Ok (-12347)) 1%Q
      {| decimals := 9 |} {| decimals := 6 |}
      {| objectId := "0x1"; type := "0x5::fee3000bps::FEE3000BPS";
         tickSpacing := 60 |} = Ok tick
    /\ Pool000.getTickIndex (fun _ _ _ => Ok tick) 1%Q
         {| decimals := 9 |} {| decimals := 6 |}
         {| objectId := "0x1"; type := "0x5::fee3000bps::FEE3000BPS";
            tickSpacing := 60 |} = Ok tick.
Proof.
  apply (getTickIndex_idempotent (fun _ _ _ => Ok (-12347)) 1%Q
           {| decimals := 9 |} {| decimals := 6 |}
           {| objectId := "0x1"; type := "0x5::fee3000bps::FEE3000BPS";
              tickSpacing := 60 |} (-12347)).
  - simpl. lia.
  - reflexivity.
Defined.

(** X13: snapping keeps the order of ticks: if the tick derived for the
    minimum price is at most the one derived for the maximum price, the
    same holds after snapping (the two may become equal). *)
Theorem getTickIndex_order_preserving
        (priceToTickIndex : Decimal.t -> Z -> Z -> result Z)
        (minPrice maxPrice : Decimal.t) (coinA coinB : CoinMetadata) (fee : Fee)
        (derivedMin derivedMax : Z) :
  0 < tickSpacing fee ->
  priceToTickIndex minPrice (decimals coinA) (decimals coinB) = Ok derivedMin ->
  priceToTickIndex maxPrice (decimals coinA) (decimals coinB) = Ok derivedMax ->
  derivedMin <= derivedMax ->
  exists minTick maxTick,
    Pool000.getTickIndex priceToTickIndex minPrice coinA coinB fee = Ok minTick
    /\ Pool000.getTickIndex priceToTickIndex maxPrice coinA coinB fee = Ok maxTick
    /\ minTick <= maxTick.
Proof.
  intros Hs Hmin Hmax Hle. unfold Pool000.getTickIndex.
  rewrite Hmin, Hmax. cbn [bind].
  destruct (snap_toward_zero derivedMin (tickSpacing fee) Hs) as (Hq1 & _).
  destruct (snap_toward_zero derivedMax (tickSpacing fee) Hs) as (Hq2 & _).
  do 2 eexists. split; [reflexivity|]. split; [reflexivity|].
  rewrite Hq1, Hq2. apply Z.mul_le_mono_nonneg_l; [lia|].
  now apply Z.quot_le_mono.
Qed.

Lemma getTickIndex_order_preserving_witness :
  exists minTick maxTick,
    Pool000.getTickIndex
      (fun p _ _ => Ok (if Qle_bool p 1 then -61 else 59)) 1%Q
      {| decimals := 9 |} {| decimals := 6 |}
      {| objectId := "0x1"; type := "0x5::fee3000bps::FEE3000BPS";
         tickSpacing := 60 |} = Ok minTick
    /\ Pool000.getTickIndex
         (fun p _ _ => Ok (if Qle_bool p 1 then -61 else 59)) 2%Q
         {| decimals := 9 |} {| decimals := 6 |}
         {| objectId := "0x1"; type := "0x5::fee3000bps::FEE3000BPS";
            tickSpacing := 60 |} = Ok maxTick
    /\ minTick <= maxTick.
Proof.
  apply (getTickIndex_order_preserving
           (fun p _ _ => Ok (if Qle_bool p 1 then -61 else 59)) 1%Q 2%Q
           {| decimals := 9 |} {| decimals := 6 |}
           {| objectId := "0x1"; type := "0x5::fee3000bps::FEE3000BPS";
              tickSpacing := 60 |} (-61) 59).
  - simpl. lia.
  - reflexivity.
  - reflexivity.
  - lia.
Defined.

(** X14: the magnitude and sign sent for a snapped tick determine it: the
    magnitude is a non-negative multiple of the spacing not above the
    magnitude of the derived tick, the sign is set only with a non-zero
    magnitude, and no two ticks give the same pair. *)
Theorem tickArguments_of_snapped_tick
        (priceToTickIndex : Decimal.t -> Z -> Z -> result Z)
        (price : Decimal.t) (coinA coinB : CoinMetadata) (fee : Fee) (derived : Z) :
  0 < tickSpacing fee ->
  priceToTickIndex price (decimals coinA) (decimals coinB) = Ok derived ->
  exists tick,
    Pool000.getTickIndex priceToTickIndex price coinA coinB fee = Ok tick
    /\ 0 <= fst (tickArguments tick) <= Z.abs derived
    /\ JS.rem (fst (tickArguments tick)) (tickSpacing fee) = 0
    /\ (snd (tickArguments tick) = true -> 0 < fst (tickArguments tick))
    /\ tick = (if snd (tickArguments tick) then - fst (tickArguments tick)
               else fst (tickArguments tick))
    /\ forall other, tickArguments other = tickArguments tick -> other = tick.
Proof.
  intros Hs Hd. unfold Pool000.getTickIndex. rewrite Hd. cbn [bind].
  destruct (snap_toward_zero derived (tickSpacing fee) Hs)
    as (_ & Hrem & Habs & _).
  set (tick := derived - JS.rem derived (tickSpacing fee)) in *.
  exists tick. split; [reflexivity|].
  unfold tickArguments. cbn [fst snd].
  split; [lia|]. split; [|split; [|split]].
  - unfold JS.rem in *. rewrite Z.rem_abs_l by lia. rewrite Hrem. reflexivity.
  - intros H. apply Z.ltb_lt in H. lia.
  - destruct (Z.ltb_spec tick 0); lia.
  - intros other [= Habs' Hsign].
    destruct (Z.ltb_spec other 0), (Z.ltb_spec tick 0); try discriminate; lia.
Qed.

Lemma tickArguments_of_snapped_tick_witness :
  exists tick,
    Pool000.getTickIndex (fun _ _ _ => Ok (-12347)) 1%Q
      {| decimals := 9 |} {| decimals := 6 |}
      {| objectId := "0x1"; type := "0x5::fee3000bps::FEE3000BPS";
         tickSpacing := 60 |} = Ok tick
    /\ tickArguments tick = (12300, true).
Proof.
  destruct (tickArguments_of_snapped_tick (fun _ _ _ => Ok (-12347)) 1%Q
              {| decimals := 9 |} {| decimals := 6 |}
              {| objectId := "0x1"; type := "0x5::fee3000bps::FEE3000BPS";
                 tickSpacing := 60 |} (-12347)) as (tick & Htick & _).
  - simpl. lia.
  - reflexivity.
  - exists tick. split; [exact Htick|].
    vm_compute in Htick. injection Htick as <-. reflexivity.
Defined.

(** ** Pool types: parsing what the node prints *)

Lemma wordRun_app (w r : string) :
  allWord w = true -> noWordHead r -> JS.wordRun (w ++ r) = (w, r).
Proof.
  intros Hw Hr. induction w as [|a w IH]; cbn [append].
  - destruct r as [|c r]; [reflexivity|]. cbn in *. now rewrite Hr.
  - cbn [allWord] in Hw. apply andb_true_iff in Hw as [Ha Hw].
    cbn [JS.wordRun]. rewrite Ha, (IH Hw). reflexivity.
Qed.

Lemma matchTypePath_complete (m r : string) :
  typePath m -> noWordHead r -> JS.matchTypePath (m ++ r) = Some m.
Proof.
  intros (w1 & w2 & w3 & [Hn1 Hw1] & [Hn2 Hw2] & [Hn3 Hw3] & ->) Hr.
  rewrite !string_app_assoc. unfold JS.matchTypePath.
  rewrite (wordRun_app w1) by (trivial; reflexivity).
  destruct w1 as [|c1 w1]; [now contradiction Hn1|].
  cbn [append JS.dropPrefix Ascii.eqb Bool.eqb].
  rewrite (wordRun_app w2) by (trivial; reflexivity).
  destruct w2 as [|c2 w2]; [now contradiction Hn2|].
  cbn [append JS.dropPrefix Ascii.eqb Bool.eqb].
  rewrite (wordRun_app w3) by trivial.
  destruct w3 as [|c3 w3]; [now contradiction Hn3|].
  reflexivity.
Qed.

Lemma matchAllFrom_skip (x r : string) :
  JS.matchAllFrom (String.length x) (x ++ r) = JS.matchAllFrom 0 r.
Proof. induction x as [|c x IH]; [reflexivity | exact IH]. Qed.

Lemma matchAll_segment (m r : string) :
  typePath m -> noWordHead r ->
  JS.matchAllFrom 0 (m ++ r) = m :: JS.matchAllFrom 0 r.
Proof.
  intros Hm Hr. pose proof (matchTypePath_complete m r Hm Hr) as Hmatch.
  destruct m as [|c m].
  - destruct Hm as ([|] & w2 & w3 & [Hn1 _] & _ & _ & E);
      [now contradiction Hn1 | discriminate E].
  - cbn [append] in *. cbn [JS.matchAllFrom]. rewrite Hmatch.
    cbn [String.length Nat.pred]. now rewrite matchAllFrom_skip.
Qed.

Lemma matchAll_separator (c : ascii) (r : string) :
  JS.isWordChar c = false ->
  JS.matchAllFrom 0 (String c r) = JS.matchAllFrom 0 r.
Proof.
  intros Hc. cbn [JS.matchAllFrom]. unfold JS.matchTypePath.
  cbn [JS.wordRun]. now rewrite Hc.
Qed.

(** X15: the type text of a pool, [Pool<CoinA, CoinB, Fee>] with four plain
    [pkg::module::name] paths, parses back to exactly its three type
    arguments, in both revisions. *)
Theorem parsePoolType_of_poolTypeText (pool coinA coinB fee : string) :
  typePath pool -> typePath coinA -> typePath coinB -> typePath fee ->
  Pool000.parsePoolType (poolTypeText pool coinA coinB fee)
  = Ok (coinA, coinB, fee)
  /\ Pool001.getPoolTypeArguments (poolTypeText pool coinA coinB fee)
     = Ok (coinA, coinB, fee).
Proof.
  intros Hp Ha Hb Hf.
  assert (Hall : JS.matchAll (poolTypeText pool coinA coinB fee)
                 = [pool; coinA; coinB; fee]).
  { unfold JS.matchAll, poolTypeText.
    rewrite (matchAll_segment pool) by (trivial; reflexivity).
    cbn [append]. rewrite matchAll_separator by reflexivity.
    rewrite (matchAll_segment coinA) by (trivial; reflexivity).
    cbn [append]. rewrite !matchAll_separator by reflexivity.
    rewrite (matchAll_segment coinB) by (trivial; reflexivity).
    cbn [append]. rewrite !matchAll_separator by reflexivity.
    rewrite (matchAll_segment fee) by (trivial; reflexivity).
    rewrite matchAll_separator by reflexivity. reflexivity. }
  unfold Pool000.parsePoolType, Pool001.getPoolTypeArguments.
  rewrite Hall. split; reflexivity.
Qed.

Lemma parsePoolType_of_poolTypeText_witness :
  Pool000.parsePoolType
    "0x5::pool::Pool<0x2::sui::SUI, 0x7::usdc::USDC, 0x5::fee3000bps::FEE3000BPS>"
  = Ok ("0x2::sui::SUI", "0x7::usdc::USDC", "0x5::fee3000bps::FEE3000BPS")%string.
Proof.
  apply (parsePoolType_of_poolTypeText "0x5::pool::Pool" "0x2::sui::SUI"
           "0x7::usdc::USDC" "0x5::fee3000bps::FEE3000BPS").
  - exists "0x5"%string, "pool"%string, "Pool"%string.
    repeat split; (discriminate || reflexivity).
  - exists "0x2"%string, "sui"%string, "SUI"%string.
    repeat split; (discriminate || reflexivity).
  - exists "0x7"%string, "usdc"%string, "USDC"%string.
    repeat split; (discriminate || reflexivity).
  - exists "0x5"%string, "fee3000bps"%string, "FEE3000BPS"%string.
    repeat split; (discriminate || reflexivity).
Defined.

(** X16: a pool over a coin type that is itself generic, as in
    [Pool<Outer<Inner>, CoinB, Fee>], holds five paths and is rejected with
    the invalid-pool-type error by both revisions. *)
Theorem parsePoolType_rejects_generic_coin
        (pool outer inner coinB fee : string) :
  typePath pool -> typePath outer -> typePath inner ->
  typePath coinB -> typePath fee ->
  Pool000.parsePoolType
    (pool ++ "<" ++ outer ++ "<" ++ inner ++ ">, " ++ coinB ++ ", " ++ fee ++ ">")
  = Throw "Invalid pool type"
  /\ Pool001.getPoolTypeArguments
       (pool ++ "<" ++ outer ++ "<" ++ inner ++ ">, " ++ coinB ++ ", " ++ fee ++ ">")
     = Throw "Invalid pool type".
Proof.
  intros Hp Ho Hi Hb Hf.
  assert (Hall : JS.matchAll
                   (pool ++ "<" ++ outer ++ "<" ++ inner ++ ">, " ++ coinB
                    ++ ", " ++ fee ++ ">")
                 = [pool; outer; inner; coinB; fee]).
  { unfold JS.matchAll.
    rewrite (matchAll_segment pool) by (trivial; reflexivity).
    cbn [append]. rewrite matchAll_separator by reflexivity.
    rewrite (matchAll_segment outer) by (trivial; reflexivity).
    cbn [append]. rewrite matchAll_separator by reflexivity.
    rewrite (matchAll_segment inner) by (trivial; reflexivity).
    cbn [append]. rewrite !matchAll_separator by reflexivity.
    rewrite (matchAll_segment coinB) by (trivial; reflexivity).
    cbn [append]. rewrite !matchAll_separator by reflexivity.
    rewrite (matchAll_segment fee) by (trivial; reflexivity).
    rewrite matchAll_separator by reflexivity. reflexivity. }
  unfold Pool000.parsePoolType, Pool001.getPoolTypeArguments.
  rewrite Hall. split; reflexivity.
Qed.

Lemma parsePoolType_rejects_generic_coin_witness :
  Pool000.parsePoolType
    "0x5::pool::Pool<0x2::coin::Coin<0x2::sui::SUI>, 0x7::usdc::USDC, 0x5::fee::FEE>"
  = Throw "Invalid pool type".
Proof.
  apply (parsePoolType_rejects_generic_coin "0x5::pool::Pool" "0x2::coin::Coin"
           "0x2::sui::SUI" "0x7::usdc::USDC" "0x5::fee::FEE").
  - exists "0x5"%string, "pool"%string, "Pool"%string.
    repeat split; (discriminate || reflexivity).
  - exists "0x2"%string, "coin"%string, "Coin"%string.
    repeat split; (discriminate || reflexivity).
  - exists "0x2"%string, "sui"%string, "SUI"%string.
    repeat split; (discriminate || reflexivity).
  - exists "0x7"%string, "usdc"%string, "USDC"%string.
    repeat split; (discriminate || reflexivity).
  - exists "0x5"%string, "fee"%string, "FEE"%string.
    repeat split; (discriminate || reflexivity).
Defined.

(** ** Coin types taken for SUI *)







(** ** Coin selection: largest first, whatever the arrival order *)

Lemma StronglySorted_app_cross {A} (R : A -> A -> Prop) (l1 l2 : list A) :
  StronglySorted R (l1 ++ l2) ->
  forall a b, In a l1 -> In b l2 -> R a b.
Proof.
  induction l1 as [|x l1 IH]; intros Hs a b Ha Hb; [destruct Ha|].
  cbn [app] in Hs. apply StronglySorted_inv in Hs as [Hs Hx].
  destruct Ha as [<-|Ha].
  - rewrite Forall_forall in Hx. apply Hx, in_or_app. now right.
  - now apply IH.
Qed.

(** X18: largest first: for balances the sort compares exactly, no record
    left out has a larger balance than a record that was selected. *)
Theorem selectCoinIds_largest_first (pages : list (list Coin)) (target : Q) :
  Forall exactBalance (concat pages) ->
  exists sel rest,
    Pool001.selectCoinIds pages target = map coinObjectId sel
    /\ Permutation (concat pages) (sel ++ rest)
    /\ forall chosen left, In chosen sel -> In left rest ->
         balance left <= balance chosen.
Proof.
  intros Hex.
  destruct (selectCoinIds_collected pages target) as (rest & Hids & Hsplit & _).
  destruct (sortCoins_descendingStable _ Hex) as (Hperm & Hsorted & _).
  exists (collected (Pool001.sortCoins (concat pages)) 0%Q target), rest.
  split; [exact Hids|]. split; [now rewrite <- Hsplit|].
  rewrite Hsplit in Hsorted.
  intros chosen left. apply (StronglySorted_app_cross _ _ _ Hsorted).
Qed.

Lemma selectCoinIds_largest_first_witness :
  exists sel rest,
    Pool001.selectCoinIds [[mkCoin "A" 30; mkCoin "B" 50]; [mkCoin "C" 20]] 60%Q
    = map coinObjectId sel
    /\ Permutation [mkCoin "A" 30; mkCoin "B" 50; mkCoin "C" 20] (sel ++ rest)
    /\ forall chosen left, In chosen sel -> In left rest ->
         balance left <= balance chosen.
Proof.
  apply (selectCoinIds_largest_first
           [[mkCoin "A" 30; mkCoin "B" 50]; [mkCoin "C" 20]] 60%Q).
  repeat constructor; simpl; lia.
Defined.

Lemma descending_perm_unique (l1 l2 : list Z) :
  StronglySorted (fun x y => y <= x) l1 ->
  StronglySorted (fun x y => y <= x) l2 ->
  Permutation l1 l2 -> l1 = l2.
Proof.
  intros H1. revert l2. induction H1 as [|x l1 Hs1 IH Hx]; intros l2 H2 Hperm.
  - apply Permutation_nil in Hperm. now subst.
  - destruct H2 as [|y l2 Hs2 Hy].
    + symmetry in Hperm. apply Permutation_nil in Hperm. discriminate Hperm.
    + assert (Hxy : x = y).
      { rewrite Forall_forall in Hx, Hy.
        assert (Hx2 : In x (y :: l2))
          by (eapply Permutation_in; [exact Hperm | now left]).
        assert (Hy1 : In y (x :: l1))
          by (eapply Permutation_in; [symmetry; exact Hperm | now left]).
        destruct Hx2 as [E|Hx2]; [now symmetry|].
        destruct Hy1 as [E|Hy1]; [exact E|].
        apply Hy in Hx2. apply Hx in Hy1. lia. }
      subst y. f_equal. apply IH; [exact Hs2|].
      now apply Permutation_cons_inv in Hperm.
Qed.

Lemma StronglySorted_map_balance (l : list Coin) :
  StronglySorted (fun a b => balance b <= balance a) l ->
  StronglySorted (fun x y => y <= x) (map balance l).
Proof.
  induction 1 as [|c l Hs IH Hc]; cbn [map]; constructor; [exact IH|].
  rewrite Forall_forall in *. intros y Hy.
  apply in_map_iff in Hy as (b & <- & Hb). now apply Hc.
Qed.

Lemma collected_length_balances (l1 l2 : list Coin) (total need : Q) :
  map balance l1 = map balance l2 ->
  List.length (collected l1 total need) = List.length (collected l2 total need).
Proof.
  revert l2 total. induction l1 as [|c1 l1 IH]; intros [|c2 l2] total E;
    try discriminate E; [reflexivity|].
  cbn [map] in E. injection E as Eb El. cbn [collected]. rewrite Eb.
  destruct (Decimal.gte _ need); [reflexivity|].
  cbn [List.length]. f_equal. now apply IH.
Qed.

(** X19: for balances the sort compares exactly, the number of ids returned
    depends only on the balances and the target, not on the order in which
    the node returned the records nor on how it paged them. *)
Theorem selectCoinIds_count_order_independent
        (pages1 pages2 : list (list Coin)) (target : Q) :
  Forall exactBalance (concat pages1) ->
  Permutation (concat pages1) (concat pages2) ->
  List.length (Pool001.selectCoinIds pages1 target)
  = List.length (Pool001.selectCoinIds pages2 target).
Proof.
  intros Hex1 Hperm.
  assert (Hex2 : Forall exactBalance (concat pages2))
    by (eapply Permutation_Forall; eassumption).
  destruct (sortCoins_descendingStable _ Hex1) as (Hp1 & Hs1 & _).
  destruct (sortCoins_descendingStable _ Hex2) as (Hp2 & Hs2 & _).
  unfold Pool001.selectCoinIds. rewrite !collect_collected.
  cbn [app]. rewrite !length_map.
  apply collected_length_balances.
  apply descending_perm_unique; try now apply StronglySorted_map_balance.
  apply Permutation_map.
  rewrite <- Hp1, <- Hp2. exact Hperm.
Qed.

Lemma selectCoinIds_count_order_independent_witness :
  List.length
    (Pool001.selectCoinIds [[mkCoin "A" 30; mkCoin "B" 50]; [mkCoin "C" 20]] 60%Q)
  = List.length
      (Pool001.selectCoinIds [[mkCoin "C" 20; mkCoin "B" 50; mkCoin "A" 30]] 60%Q).
Proof.
  apply (selectCoinIds_count_order_independent
           [[mkCoin "A" 30; mkCoin "B" 50]; [mkCoin "C" 20]]
           [[mkCoin "C" 20; mkCoin "B" 50; mkCoin "A" 30]] 60%Q).
  - repeat constructor; simpl; lia.
  - simpl. apply Permutation_rev with (l := [mkCoin "A" 30; mkCoin "B" 50; mkCoin "C" 20]).
Defined.

(** ** Token amounts: an empty range *)

(** X20: a range whose bounds coincide (at a positive price) holds nothing:
    both amounts are zero for every current price, liquidity and rounding
    mode. *)
Theorem getTokenAmountsFromLiquidity_empty_range
        (pCurrent p L : Z) (mode : option bool) :
  0 < p ->
  Pool000.getTokenAmountsFromLiquidity
    {| currentSqrtPrice := pCurrent; lowerSqrtPrice := p;
       upperSqrtPrice := p; liquidity := Some L; ceil := mode |}
  = Some (0, 0).
Proof.
  intros Hp. rewrite amounts_clamped by lia.
  replace (clampPrice pCurrent p p) with p by (unfold clampPrice; lia).
  rewrite <- (rounding_zero mode). f_equal. f_equal; apply rounding_Qeq.
  - unfold amountAAt, Spec.toX64, Qdiv. ring.
  - unfold amountBAt, Spec.fromX64, Qdiv. ring.
Qed.

Lemma getTokenAmountsFromLiquidity_empty_range_witness :
  Pool000.getTokenAmountsFromLiquidity
    {| currentSqrtPrice := 7; lowerSqrtPrice := 2 ^ 64;
       upperSqrtPrice := 2 ^ 64; liquidity := Some 1000; ceil := None |}
  = Some (0, 0).
Proof.
  apply (getTokenAmountsFromLiquidity_empty_range 7 (2 ^ 64) 1000 None). lia.
Defined.
